(** * kernl: CUDA-graph input pool ([src/kernl/optimizer/cuda_graph.py])

    A shallow embedding of [get_static_inputs] and [cuda_graphs_wrapper],
    and the properties of the buffer pool, the input binder and the
    eager/deferred wrapper that the specification states.

    The Python module keeps one process-wide dictionary
    [static_inputs_pool]; the functions are therefore modelled in a state
    and exception monad over a [State] record that holds the pool, the device
    memory, the closure cells of the deferred wrappers and the trace of calls
    made to the external collaborators (the wrapped model, the graph-capture
    primitive and the replay functions it returns).

    Modelling choices. The torch operations the module calls are total
    functions on an abstract device memory: torch's own argument checks and
    allocation failure are left out, so the only exception of the model is
    the AssertionError of the two [assert] statements. The external
    collaborators are opaque: a call to one of them is recorded in the trace
    and has no other effect. Pool keys are pairs [Z * dtype] of a size class
    and a dtype. *)

From Stdlib Require Import ZArith Lia.
From stdpp Require Import base option numbers list gmap.

Local Open Scope Z_scope.

(** ** The part of torch the module uses *)

Module Torch.

(** [torch.dtype], with the element width in bytes. *)
Inductive dtype : Set :=
  | float64 | float32 | float16 | bfloat16
  | int64 | int32 | int16 | int8 | uint8 | bool8.

Definition itemsize (d : dtype) : Z :=
  match d with
  | float64 | int64 => 8
  | float32 | int32 => 4
  | float16 | bfloat16 | int16 => 2
  | int8 | uint8 | bool8 => 1
  end.

Inductive device : Set := cpu | cuda (index : nat).

(** An untyped storage: one device allocation, identified by its base
    address, [nbytes] bytes long. [len(t.untyped_storage())] is [nbytes]:
    an untyped storage is a byte array, whatever the dtype of the tensors
    that view it. *)
Record Storage : Set := { base : Z; nbytes : Z }.

(** A tensor is a strided view of a storage. [tfake] is set for instances
    of the subclass FakeTensor (shape and dtype only, no data). *)
Record Tensor : Set := {
  tstorage : Storage;
  toffset : Z;              (* storage_offset(), in elements *)
  tsize : list Z;           (* size() *)
  tstride : list Z;         (* stride(), in elements *)
  tdtype : dtype;
  tdevice : device;
  tfake : bool
}.

Definition untyped_storage_len (t : Tensor) : Z := nbytes (tstorage t).

Definition data_ptr (t : Tensor) : Z :=
  base (tstorage t) + toffset t * itemsize (tdtype t).

(** [torch.as_strided(t, size, stride)]: the storage offset argument is
    left out by the caller, so the view keeps the offset of [t]. *)
Definition as_strided (t : Tensor) (size stride : list Z) : Tensor :=
  {| tstorage := tstorage t; toffset := toffset t;
     tsize := size; tstride := stride;
     tdtype := tdtype t; tdevice := tdevice t; tfake := tfake t |}.

(** Device memory: the allocator's break ([brk], the next free address;
    nothing is ever freed while the pool holds its buffers) and the
    contents of the storages, one cell per element, addressed by the
    storage's base address and the element index. A cell never written
    reads as 0. *)
Record Memory : Type := { brk : Z; cells : gmap (Z * Z) Z }.

Definition read (m : Memory) (b i : Z) : Z := default 0 (cells m !! (b, i)).

(** The element offsets a view addresses, in row-major order of its
    indices. *)
Fixpoint offsets (size stride : list Z) : list Z :=
  match size, stride with
  | n :: size', st :: stride' =>
      i ← seqZ 0 n; (λ o, i * st + o) <$> offsets size' stride'
  | _, _ => [0]
  end.

(** The logical values of a tensor. *)
Definition values (m : Memory) (t : Tensor) : list Z :=
  (λ o, read m (base (tstorage t)) (toffset t + o)) <$>
    offsets (tsize t) (tstride t).

Definition write_cells (b : Z) (ws : list (Z * Z)) (c : gmap (Z * Z) Z)
  : gmap (Z * Z) Z :=
  foldl (λ c w, <[(b, w.1) := w.2]> c) c ws.

(** [dst.copy_(src)] for tensors of one shape: every element of [src] is
    read, then written at the same index of [dst]. *)
Definition copy_mem (dst src : Tensor) (m : Memory) : Memory :=
  {| brk := brk m;
     cells := write_cells (base (tstorage dst))
                (zip ((λ o, toffset dst + o) <$> offsets (tsize dst) (tstride dst))
                     (values m src))
                (cells m) |}.

(** [torch.empty((n,), dtype=dt, device=dev)]: a fresh storage of [n]
    elements at the break, contents left as they are. *)
Definition empty_mem (n : Z) (dt : dtype) (dev : device) (m : Memory)
  : Tensor * Memory :=
  ({| tstorage := {| base := brk m; nbytes := n * itemsize dt |};
      toffset := 0; tsize := [n]; tstride := [1];
      tdtype := dt; tdevice := dev; tfake := false |},
   {| brk := brk m + n * itemsize dt; cells := cells m |}).

#[global] Instance dtype_eq_dec : EqDecision dtype.
Proof. solve_decision. Defined.

Definition dtype_code (d : dtype) : nat :=
  match d with
  | float64 => 0 | float32 => 1 | float16 => 2 | bfloat16 => 3
  | int64 => 4 | int32 => 5 | int16 => 6 | int8 => 7 | uint8 => 8
  | bool8 => 9
  end%nat.

Definition dtype_of_code (n : nat) : dtype :=
  match n with
  | 0 => float64 | 1 => float32 | 2 => float16 | 3 => bfloat16
  | 4 => int64 | 5 => int32 | 6 => int16 | 7 => int8 | 8 => uint8
  | _ => bool8
  end%nat.

#[global] Instance dtype_countable : Countable dtype.
Proof.
  refine (inj_countable' dtype_code dtype_of_code _).
  intros []; reflexivity.
Defined.

End Torch.
Export Torch.

(** ** triton.next_power_of_2 *)

(** Modelled from the spec: [triton.next_power_of_2] belongs to an external
    package and is not under src/; the specification describes it as the
    smallest power of two that is greater than or equal to its argument. *)
Definition next_power_of_2 (n : Z) : Z := 2 ^ Z.log2_up n.

(** ** State, exceptions and the monad *)

Definition ModelId := nat.
Definition FnId := nat.
Definition CellId := nat.

(** Calls made to the external collaborators. *)
Inductive Event : Type :=
  | ModelCall (model : ModelId) (args : list Tensor)
  | Capture (model : ModelId) (inputs : list Tensor)
            (static_input_idxs : list nat) (f : FnId)
  | Replay (f : FnId) (args : list Tensor)
  | RngSave
  | RngRestore.

Record State : Type := {
  static_inputs_pool : gmap (Z * dtype) (list Tensor);
  memory : Memory;
  closure_cells : list (option FnId);   (* the [compiled_fn] cells *)
  trace : list Event
}.

Definition set_pool (p : gmap (Z * dtype) (list Tensor)) (s : State) : State :=
  {| static_inputs_pool := p; memory := memory s;
     closure_cells := closure_cells s; trace := trace s |}.

Definition set_memory (m : Memory) (s : State) : State :=
  {| static_inputs_pool := static_inputs_pool s; memory := m;
     closure_cells := closure_cells s; trace := trace s |}.

Definition set_cells (c : list (option FnId)) (s : State) : State :=
  {| static_inputs_pool := static_inputs_pool s; memory := memory s;
     closure_cells := c; trace := trace s |}.

Definition set_trace (t : list Event) (s : State) : State :=
  {| static_inputs_pool := static_inputs_pool s; memory := memory s;
     closure_cells := closure_cells s; trace := t |}.

Inductive exn : Set := AssertionError.

Definition M (A : Type) : Type := State → (exn + A) * State.

#[global] Instance M_ret : MRet M := λ A x s, (inr x, s).
#[global] Instance M_bind : MBind M := λ A B f c s,
  match c s with
  | (inr x, s') => f x s'
  | (inl e, s') => (inl e, s')
  end.

Definition get_state : M State := λ s, (inr s, s).
Definition modify (f : State → State) : M unit := λ s, (inr (), f s).
Definition py_assert (b : bool) : M unit :=
  λ s, (if b then inr () else inl AssertionError, s).

(** The state after a computation, and what it returned. *)
Definition state_after {A} (c : M A) (s : State) : State := (c s).2.
Definition returned {A} (c : M A) (s : State) : option A :=
  match (c s).1 with inr x => Some x | inl _ => None end.

(** ** get_static_inputs *)

Definition pool_key (original_tensor : Tensor) : Z * dtype :=
  let storage_size := next_power_of_2 (untyped_storage_len original_tensor) in
  (storage_size, tdtype original_tensor).

(** [d[k]] on a [defaultdict(deque)]: a missing key is entered with an empty
    deque, and the deque under the key is the result. *)
Definition defaultdict_touch (d : gmap (Z * dtype) (list Tensor)) (k : Z * dtype)
  : gmap (Z * dtype) (list Tensor) :=
  match d !! k with Some _ => d | None => <[k := []]> d end.

Definition torch_empty (n : Z) (dt : dtype) (dev : device) : M Tensor :=
  λ s, let '(t, m) := empty_mem n dt dev (memory s) in (inr t, set_memory m s).

Definition copy_ (dst src : Tensor) : M unit :=
  modify (λ s, set_memory (copy_mem dst src (memory s)) s).

Definition pool_append (k : Z * dtype) (t : Tensor) : M unit :=
  modify (λ s,
    let p := defaultdict_touch (static_inputs_pool s) k in
    set_pool (<[k := (p !!! k) ++ [t]]> p) s).

(** One iteration of the loop over [model_inputs]. The loop's variables are
    the call-local snapshot [static_inputs_clone] and the result list. *)
Definition bind_input (original_tensor : Tensor)
    (static_inputs_clone : gmap (Z * dtype) (list Tensor))
    (cuda_graph_input : list Tensor)
  : M (gmap (Z * dtype) (list Tensor) * list Tensor) :=
  let storage_size := next_power_of_2 (untyped_storage_len original_tensor) in
  let tensor_pool_key := (storage_size, tdtype original_tensor) in
  let static_inputs_clone := defaultdict_touch static_inputs_clone tensor_pool_key in
  '(static_tensor, static_inputs_clone) ←
    match static_inputs_clone !!! tensor_pool_key with
    | static_tensor :: rest =>
        (* popleft *)
        mret (static_tensor, <[tensor_pool_key := rest]> static_inputs_clone)
    | [] =>
        static_tensor ← torch_empty storage_size (tdtype original_tensor)
                                    (tdevice original_tensor);
        _ ← pool_append tensor_pool_key static_tensor;
        mret (static_tensor, static_inputs_clone)
    end;
  let before_ptr := data_ptr static_tensor in
  let static_tensor :=
    as_strided static_tensor (tsize original_tensor) (tstride original_tensor) in
  _ ← copy_ static_tensor original_tensor;
  let cuda_graph_input := cuda_graph_input ++ [static_tensor] in
  _ ← py_assert (before_ptr =? data_ptr static_tensor);
  mret (static_inputs_clone, cuda_graph_input).

Fixpoint bind_inputs (model_inputs : list Tensor)
    (static_inputs_clone : gmap (Z * dtype) (list Tensor))
    (cuda_graph_input : list Tensor) : M (list Tensor) :=
  match model_inputs with
  | [] => mret cuda_graph_input
  | original_tensor :: model_inputs =>
      '(static_inputs_clone, cuda_graph_input) ←
        bind_input original_tensor static_inputs_clone cuda_graph_input;
      bind_inputs model_inputs static_inputs_clone cuda_graph_input
  end.

Definition get_static_inputs (model_inputs : list Tensor) : M (list Tensor) :=
  s ← get_state;
  (* every deque of the pool is copied into the snapshot *)
  let static_inputs_clone := static_inputs_pool s in
  bind_inputs model_inputs static_inputs_clone [].

(** ** cuda_graphs_wrapper *)

(** What a caller can pass as [inputs]. *)
Inductive PyObj : Type :=
  | PyList (l : list Tensor)
  | PyTuple (l : list Tensor)
  | PyTensor (t : Tensor)
  | PyNone.

Definition isinstance_list_tuple (o : PyObj) : bool :=
  match o with PyList _ | PyTuple _ => true | _ => false end.

(** The items of a list or tuple, as iteration and [len] see them. *)
Definition items (o : PyObj) : list Tensor :=
  match o with PyList l | PyTuple l => l | _ => [] end.

Definition isinstance_FakeTensor (inp : Tensor) : bool := tfake inp.

(** The result of a replay function, opaque. *)
Inductive Output : Type := ReplayOutput (f : FnId) (args : list Tensor).

Definition log (e : Event) : M unit := modify (λ s, set_trace (trace s ++ [e]) s).

(** The call of the wrapped model on the unpacked inputs; both callers
    discard its result. *)
Definition call_model (model : ModelId) (args : list Tensor) : M unit :=
  log (ModelCall model args).

(** The graph-capture primitive: a black box that returns a new replay
    function, named by the position of the capture in the trace. *)
Definition cudagraphify_impl (model : ModelId) (inputs : list Tensor)
    (static_input_idxs : list nat) : M FnId :=
  s ← get_state;
  let f := length (trace s) in
  _ ← log (Capture model inputs static_input_idxs f);
  mret f.

Definition call_replay (f : FnId) (args : list Tensor) : M Output :=
  _ ← log (Replay f args);
  mret (ReplayOutput f args).

(** The closure cell [compiled_fn] of a deferred wrapper. *)
Definition new_cell : M CellId :=
  s ← get_state;
  _ ← modify (set_cells (closure_cells s ++ [None]));
  mret (length (closure_cells s)).

Definition read_cell (c : CellId) : M (option FnId) :=
  s ← get_state; mret (default None (closure_cells s !! c)).

Definition write_cell (c : CellId) (v : option FnId) : M unit :=
  modify (λ s, set_cells (<[c := v]> (closure_cells s)) s).

(** The two callables [cuda_graphs_wrapper] returns. *)
Inductive Callable : Type :=
  | eager_lambda (f : FnId)
      (* lambda args: f(get_static_inputs(args)) *)
  | run (model : ModelId) (inputs : PyObj) (compiled_fn : CellId).
      (* def run, closing over model, inputs and compiled_fn *)

Definition cuda_graphs_wrapper (model : ModelId) (inputs : PyObj) : M Callable :=
  _ ← py_assert (isinstance_list_tuple inputs);
  if negb (existsb isinstance_FakeTensor (items inputs)) then
    inputs ← get_static_inputs (items inputs);
    _ ← call_model model inputs;
    f ← cudagraphify_impl model inputs (seq 0 (length inputs));
    mret (eager_lambda f)
  else
    compiled_fn ← new_cell;
    mret (run model inputs compiled_fn).

(** Calling the returned callable with concrete arguments. *)
Definition invoke (c : Callable) (args : list Tensor) : M Output :=
  match c with
  | eager_lambda f =>
      args ← get_static_inputs args;
      call_replay f args
  | run model inputs compiled_fn =>
      new_inputs ← get_static_inputs args;
      cell ← read_cell compiled_fn;
      f ← match cell with
          | Some f => mret f
          | None =>
              _ ← log RngSave;               (* with preserve_rng_state(): *)
              _ ← call_model model new_inputs;
              f ← cudagraphify_impl model new_inputs
                    (seq 0 (length (items inputs)));
              _ ← write_cell compiled_fn (Some f);
              _ ← log RngRestore;
              mret f
          end;
      call_replay f new_inputs
  end.

(** A sequence of invocations of one callable. *)
Fixpoint invoke_all (c : Callable) (calls : list (list Tensor)) : M (list Output) :=
  match calls with
  | [] => mret []
  | args :: calls =>
      o ← invoke c args;
      os ← invoke_all c calls;
      mret (o :: os)
  end.

(** ** The loop of get_static_inputs as a fold

    The proofs look at the loop through the values of its variables after
    each iteration: the snapshot, the result list and the state. *)

Record Loop : Type := {
  l_clone : gmap (Z * dtype) (list Tensor);
  l_out : list Tensor;
  l_state : State
}.

(** The pool buffer an iteration picks for [x]: the head of the snapshot's
    deque, or a new allocation. *)
Definition chosen (x : Tensor) (σ : Loop) : Tensor :=
  match l_clone σ !!! pool_key x with
  | b :: _ => b
  | [] => (empty_mem (pool_key x).1 (tdtype x) (tdevice x)
             (memory (l_state σ))).1
  end.

Definition rebind (b x : Tensor) : Tensor := as_strided b (tsize x) (tstride x).

Definition step (σ : Loop) (x : Tensor) : Loop :=
  let k := pool_key x in
  let s := l_state σ in
  let v := rebind (chosen x σ) x in
  match l_clone σ !!! k with
  | _ :: rest =>
      {| l_clone := <[k := rest]> (defaultdict_touch (l_clone σ) k);
         l_out := l_out σ ++ [v];
         l_state := set_memory (copy_mem v x (memory s)) s |}
  | [] =>
      let m := (empty_mem k.1 (tdtype x) (tdevice x) (memory s)).2 in
      let p := defaultdict_touch (static_inputs_pool s) k in
      {| l_clone := defaultdict_touch (l_clone σ) k;
         l_out := l_out σ ++ [v];
         l_state := set_memory (copy_mem v x m)
                      (set_pool (<[k := (p !!! k) ++ [chosen x σ]]> p)
                         (set_memory m s)) |}
  end.

(** The buffers picked along the loop, one per input. *)
Fixpoint buffers (xs : list Tensor) (σ : Loop) : list Tensor :=
  match xs with
  | [] => []
  | x :: xs => chosen x σ :: buffers xs (step σ x)
  end.

(** The members of [ys] that stand at the positions where the key sequence
    [ks] has the key [k]. *)
Fixpoint served {A} (k : Z * dtype) (ks : list (Z * dtype)) (ys : list A) : list A :=
  match ks, ys with
  | k' :: ks, y :: ys =>
      if decide (k' = k) then y :: served k ks ys else served k ks ys
  | _, _ => []
  end.

Definition start (s : State) : Loop :=
  {| l_clone := static_inputs_pool s; l_out := []; l_state := s |}.

(** The loop invariant: for each key the master deque is the buffers
    already handed out or skipped ([pre]) followed by what the snapshot
    still holds. *)
Definition split_at (pre : Z * dtype → list Tensor) (σ : Loop) : Prop :=
  ∀ k, static_inputs_pool (l_state σ) !!! k = pre k ++ l_clone σ !!! k.

Definition push (pre : Z * dtype → list Tensor) (k : Z * dtype) (b : Tensor)
  : Z * dtype → list Tensor :=
  λ k', if decide (k = k') then pre k' ++ [b] else pre k'.

(** A call's demand for a key: how many of its inputs have that key. *)
Definition demand (k : Z * dtype) (xs : list Tensor) : nat :=
  length (filter (λ x, pool_key x = k) xs).

(** The pool after a sequence of calls to [get_static_inputs]. *)
Definition after_calls (calls : list (list Tensor)) (s : State) : State :=
  foldl (λ s xs, state_after (get_static_inputs xs) s) s calls.

(** The state at process start: an empty pool, and memory in which the
    addresses below 4096 are taken by the caller's tensors. *)
Definition init_state : State :=
  {| static_inputs_pool := ∅; memory := {| brk := 4096; cells := ∅ |};
     closure_cells := []; trace := [] |}.

(** A caller's tensor: a view of a storage of [nb] bytes at [addr]. *)
Definition mk_input (addr nb : Z) (off : Z) (size stride : list Z) (dt : dtype)
  : Tensor :=
  {| tstorage := {| base := addr; nbytes := nb |}; toffset := off;
     tsize := size; tstride := stride; tdtype := dt; tdevice := cuda 0; tfake := false |}.


(** ** Observations on the trace *)

Definition is_capture (e : Event) : bool :=
  match e with Capture _ _ _ _ => true | _ => false end.

Definition capture_count (t : list Event) : nat := length (filter is_capture t).

(** The captures of a trace: the inputs passed and the static index set. *)
Definition captures (t : list Event) : list (list Tensor * list nat) :=
  omap (λ e, match e with
             | Capture _ inputs idxs _ => Some (inputs, idxs)
             | _ => None
             end) t.

(** The events a computation adds to the trace. *)
Definition events {A} (c : M A) (s : State) : list Event :=
  drop (length (trace s)) (trace (c s).2).

(** What [get_static_inputs] returns, as a function of the inputs and the
    state. *)
Definition bound (args : list Tensor) (s : State) : list Tensor :=
  default [] (returned (get_static_inputs args) s).

(** ** Well-formed pools *)




(** The rank of position [i] among the positions of key [k]. *)
Definition rank (k : Z * dtype) (i : nat) (ks : list (Z * dtype)) : nat :=
  length (filter (λ k', k' = k) (take i ks)).

(** ** Concrete inputs used in the examples *)

(** Contiguous float32 inputs of 100, 300, 10 x 10 and 260 elements, in
    storages of their own below the initial break. *)
Definition f32_100 : Tensor := mk_input 256 400 0 [100] [1] float32.
Definition f32_300 : Tensor := mk_input 768 1200 0 [300] [1] float32.
Definition f32_10x10 : Tensor := mk_input 2048 400 0 [10; 10] [10; 1] float32.
Definition f32_260 : Tensor := mk_input 2560 1040 0 [260] [1] float32.

(** The state after one call with two float32 inputs of 400 bytes each, and
    the two buffers that call registered. *)
Definition pooled_state : State :=
  state_after (get_static_inputs [f32_100; f32_10x10]) init_state.

Definition pool_buffer (addr n : Z) (dt : dtype) : Tensor :=
  {| tstorage := {| base := addr; nbytes := n * itemsize dt |}; toffset := 0;
     tsize := [n]; tstride := [1]; tdtype := dt; tdevice := cuda 0;
     tfake := false |}.

Definition buf_A : Tensor := pool_buffer 4096 512 float32.
Definition buf_B : Tensor := pool_buffer 6144 512 float32.

(** An int8 input of 100 elements, the state after it was bound once, and
    the view that call returned. *)
Definition i8_100 : Tensor := mk_input 3712 100 0 [100] [1] int8.



(** A symbolic example input, the deferred wrapper built from it at process
    start, and the state that construction leaves. *)
Definition fake_f32 : Tensor :=
  {| tstorage := {| base := 0; nbytes := 0 |}; toffset := 0;
     tsize := [100]; tstride := [1]; tdtype := float32; tdevice := cuda 0;
     tfake := true |}.

Definition deferred_wrapper : Callable := run 0%nat (PyList [fake_f32]) 0%nat.

Definition deferred_state : State := set_cells [None] init_state.

(** The storage length in elements of the input's dtype, as a typed
    storage would report it. *)
Definition storage_elements (t : Tensor) : Z :=
  nbytes (tstorage t) / itemsize (tdtype t).

(** ** Further notions used by the additional properties *)

(** The largest demand for a key over a sequence of calls. *)
Definition peak_demand (k : Z * dtype) (calls : list (list Tensor)) : nat :=
  foldr (λ xs m, max (demand k xs) m) 0%nat calls.

(** Every buffer filed under a key has the key's dtype, holds the key's size
    class in elements, contiguously, and is a real tensor. *)
Definition pool_typed (s : State) : Prop :=
  ∀ k b, b ∈ static_inputs_pool s !!! k →
    tdtype b = k.2 ∧ tsize b = [k.1] ∧ tstride b = [1] ∧
    nbytes (tstorage b) = k.1 * itemsize k.2 ∧ tfake b = false.

(** The callable [c] replays [f] in state [s]: it is the eager lambda over
    [f], or a deferred [run] whose cell holds [f]. *)
Definition replays (c : Callable) (f : FnId) (s : State) : Prop :=
  match c with
  | eager_lambda g => g = f
  | run _ _ cell => closure_cells s !! cell = Some (Some f)
  end.

(** The arguments of the replays recorded in a list of events. *)
Definition replay_args (f : FnId) (t : list Event) : list (list Tensor) :=
  omap (λ e, match e with
             | Replay g args => if decide (g = f) then Some args else None
             | _ => None
             end) t.



Definition f32_100_cpu : Tensor :=
  {| tstorage := {| base := 5120; nbytes := 400 |}; toffset := 0;
     tsize := [100]; tstride := [1]; tdtype := float32; tdevice := cpu;
     tfake := false |}.

(** * Proofs *)

(** ** The monad *)

Lemma bind_unfold {A B} (c : M A) (f : A → M B) s :
  (c ≫= f) s = match c s with
               | (inr x, s') => f x s'
               | (inl e, s') => (inl e, s')
               end.
Proof. reflexivity. Qed.

Ltac run_monad :=
  unfold mbind, M_bind, mret, M_ret, torch_empty, pool_append, copy_,
    py_assert, modify, get_state, log; cbn.

(** ** defaultdict *)

Lemma touch_lookup_total (d : gmap (Z * dtype) (list Tensor)) k k' :
  defaultdict_touch d k !!! k' = d !!! k'.
Proof.
  unfold defaultdict_touch. destruct (d !! k) eqn:E; [done|].
  destruct (decide (k = k')) as [<-|Hne].
  - rewrite lookup_total_insert_eq. by rewrite lookup_total_alt, E.
  - by rewrite lookup_total_insert_ne.
Qed.


(** ** The loop never raises, and is the fold of [step] *)

Lemma bind_input_step x clone out s :
  let σ := step {| l_clone := clone; l_out := out; l_state := s |} x in
  bind_input x clone out s = (inr (l_clone σ, l_out σ), l_state σ).
Proof.
  unfold bind_input, step, chosen; cbn [l_clone l_out l_state].
  fold (pool_key x). rewrite bind_unfold, touch_lookup_total.
  destruct (clone !!! pool_key x) as [|b rest] eqn:E; run_monad;
    rewrite Z.eqb_refl; reflexivity.
Qed.

Lemma bind_inputs_run xs : ∀ clone out s,
  let σ := foldl step {| l_clone := clone; l_out := out; l_state := s |} xs in
  bind_inputs xs clone out s = (inr (l_out σ), l_state σ).
Proof.
  induction xs as [|x xs IH]; intros clone out s; [done|].
  cbn [bind_inputs foldl]. rewrite bind_unfold, bind_input_step.
  cbn zeta. rewrite IH. by destruct (step _ x).
Qed.

Lemma get_static_inputs_run xs s :
  get_static_inputs xs s =
    (inr (l_out (foldl step (start s) xs)), l_state (foldl step (start s) xs)).
Proof. unfold get_static_inputs. rewrite bind_unfold. cbn. apply bind_inputs_run. Qed.

(** ** What one iteration and the whole loop leave unchanged *)

Lemma step_trace σ x : trace (l_state (step σ x)) = trace (l_state σ).
Proof. unfold step. by destruct (l_clone σ !!! pool_key x). Qed.

Lemma step_cells σ x :
  closure_cells (l_state (step σ x)) = closure_cells (l_state σ).
Proof. unfold step. by destruct (l_clone σ !!! pool_key x). Qed.

Lemma run_trace xs : ∀ σ, trace (l_state (foldl step σ xs)) = trace (l_state σ).
Proof.
  induction xs as [|x xs IH]; intros σ; [done|].
  cbn [foldl]. by rewrite IH, step_trace.
Qed.

Lemma run_cells xs : ∀ σ,
  closure_cells (l_state (foldl step σ xs)) = closure_cells (l_state σ).
Proof.
  induction xs as [|x xs IH]; intros σ; [done|].
  cbn [foldl]. by rewrite IH, step_cells.
Qed.

(** ** The result list *)

Lemma step_out σ x : l_out (step σ x) = l_out σ ++ [rebind (chosen x σ) x].
Proof. unfold step. by destruct (l_clone σ !!! pool_key x). Qed.

Lemma buffers_length xs : ∀ σ, length (buffers xs σ) = length xs.
Proof. induction xs as [|x xs IH]; intros σ; cbn; [done|]. by rewrite IH. Qed.

Lemma run_out xs : ∀ σ,
  l_out (foldl step σ xs) = l_out σ ++ zip_with rebind (buffers xs σ) xs.
Proof.
  induction xs as [|x xs IH]; intros σ; cbn [foldl buffers zip_with].
  - by rewrite app_nil_r.
  - by rewrite IH, step_out, <- app_assoc.
Qed.

Lemma rebind_addresses bs : ∀ xs, length bs = length xs →
  data_ptr <$> zip_with rebind bs xs = data_ptr <$> bs.
Proof.
  induction bs as [|b bs IH]; intros [|x xs] Hlen; try done.
  cbn. f_equal. apply IH. by injection Hlen.
Qed.

(** ** The pool along the loop *)

Lemma step_split pre σ x :
  split_at pre σ → split_at (push pre (pool_key x) (chosen x σ)) (step σ x).
Proof.
  intros Hinv k. unfold push, step, chosen.
  destruct (l_clone σ !!! pool_key x) as [|b rest] eqn:E; cbn.
  - destruct (decide (pool_key x = k)) as [<-|Hne].
    + rewrite lookup_total_insert_eq, !touch_lookup_total, Hinv, E.
      by rewrite !app_nil_r.
    + rewrite lookup_total_insert_ne, !touch_lookup_total by done. apply Hinv.
  - destruct (decide (pool_key x = k)) as [<-|Hne].
    + rewrite lookup_total_insert_eq, Hinv, E. by rewrite <- app_assoc.
    + rewrite lookup_total_insert_ne, touch_lookup_total by done. apply Hinv.
Qed.

Lemma run_split xs : ∀ pre σ,
  split_at pre σ →
  ∀ k, static_inputs_pool (l_state (foldl step σ xs)) !!! k =
         pre k ++ served k (pool_key <$> xs) (buffers xs σ)
               ++ l_clone (foldl step σ xs) !!! k.
Proof.
  induction xs as [|x xs IH]; intros pre σ Hinv k; cbn [foldl buffers fmap list_fmap served].
  - apply Hinv.
  - rewrite (IH _ _ (step_split _ _ x Hinv) k). unfold push.
    destruct (decide (pool_key x = k)); [|done].
    by rewrite <- !app_assoc.
Qed.

Lemma start_split s : split_at (λ _, []) (start s).
Proof. by intros k. Qed.

Lemma step_prefix σ x k :
  static_inputs_pool (l_state σ) !!! k `prefix_of`
  static_inputs_pool (l_state (step σ x)) !!! k.
Proof.
  unfold step. destruct (l_clone σ !!! pool_key x); cbn; [|done].
  destruct (decide (pool_key x = k)) as [<-|Hne].
  - rewrite lookup_total_insert_eq, touch_lookup_total. by apply prefix_app_r.
  - by rewrite lookup_total_insert_ne, touch_lookup_total.
Qed.

Lemma run_prefix xs : ∀ σ k,
  static_inputs_pool (l_state σ) !!! k `prefix_of`
  static_inputs_pool (l_state (foldl step σ xs)) !!! k.
Proof.
  induction xs as [|x xs IH]; intros σ k; cbn [foldl]; [done|].
  etrans; [apply step_prefix|apply IH].
Qed.

Lemma served_length {A} k ks : ∀ ys : list A,
  length ys = length ks → length (served k ks ys) = length (filter (λ k', k' = k) ks).
Proof.
  induction ks as [|k' ks IH]; intros [|y ys] Hlen; try done.
  cbn [served]. rewrite filter_cons. injection Hlen as Hlen.
  destruct (decide (k' = k)); cbn [length]; by rewrite IH.
Qed.

Lemma demand_keys k xs :
  demand k xs = length (filter (λ k', k' = k) (pool_key <$> xs)).
Proof.
  unfold demand. induction xs as [|x xs IH]; [done|].
  rewrite fmap_cons, !filter_cons.
  destruct (decide (pool_key x = k)); cbn [length]; by rewrite IH.
Qed.

Lemma run_length xs : ∀ pre σ k,
  split_at pre σ →
  length (static_inputs_pool (l_state (foldl step σ xs)) !!! k) =
    (length (pre k) + max (length (l_clone σ !!! k)) (demand k xs))%nat.
Proof.
  induction xs as [|x xs IH]; intros pre σ k Hinv; cbn [foldl].
  - rewrite Hinv, length_app. unfold demand. cbn. lia.
  - rewrite (IH _ _ k (step_split _ _ x Hinv)).
    unfold demand, push. rewrite filter_cons.
    unfold step. destruct (l_clone σ !!! pool_key x) as [|b rest] eqn:E; cbn;
      destruct (decide (pool_key x = k)) as [<-|Hne]; cbn;
      rewrite ?lookup_total_insert_eq, ?lookup_total_insert_ne,
        ?touch_lookup_total, ?E, ?length_app by done; cbn; lia.
Qed.

(** ** get_static_inputs, through the fold *)

Lemma returned_get_static_inputs xs s :
  returned (get_static_inputs xs) s =
    Some (zip_with rebind (buffers xs (start s)) xs).
Proof. unfold returned. by rewrite get_static_inputs_run, run_out. Qed.

Lemma state_after_get_static_inputs xs s :
  state_after (get_static_inputs xs) s = l_state (foldl step (start s) xs).
Proof. unfold state_after. by rewrite get_static_inputs_run. Qed.

Lemma pool_after_call xs s k :
  static_inputs_pool (state_after (get_static_inputs xs) s) !!! k =
    served k (pool_key <$> xs) (buffers xs (start s))
      ++ l_clone (foldl step (start s) xs) !!! k.
Proof.
  rewrite state_after_get_static_inputs.
  apply (run_split xs _ _ (start_split s) k).
Qed.

Lemma pool_prefix_call xs s k :
  static_inputs_pool s !!! k `prefix_of`
  static_inputs_pool (state_after (get_static_inputs xs) s) !!! k.
Proof. rewrite state_after_get_static_inputs. apply (run_prefix xs (start s)). Qed.

Lemma pool_length_call xs s k :
  length (static_inputs_pool (state_after (get_static_inputs xs) s) !!! k) =
    max (length (static_inputs_pool s !!! k)) (demand k xs).
Proof.
  rewrite state_after_get_static_inputs.
  by rewrite (run_length xs _ _ k (start_split s)).
Qed.

Lemma served_buffers_length xs s k :
  length (served k (pool_key <$> xs) (buffers xs (start s))) = demand k xs.
Proof.
  rewrite served_length, <- demand_keys; [done|].
  by rewrite buffers_length, length_fmap.
Qed.

(** The buffers that serve a key are the first of the key's deque after the
    call, in the deque's order. *)
Lemma served_take xs s k :
  served k (pool_key <$> xs) (buffers xs (start s)) =
    take (demand k xs)
      (static_inputs_pool (state_after (get_static_inputs xs) s) !!! k).
Proof.
  rewrite pool_after_call, <- (served_buffers_length xs s k).
  by rewrite take_app_length.
Qed.

(** A call whose demand the deque covers leaves the deque as it is. *)
Lemma pool_unchanged_call xs s k :
  (demand k xs ≤ length (static_inputs_pool s !!! k))%nat →
  static_inputs_pool (state_after (get_static_inputs xs) s) !!! k =
    static_inputs_pool s !!! k.
Proof.
  intros Hle. symmetry. apply prefix_length_eq; [apply pool_prefix_call|].
  rewrite pool_length_call. lia.
Qed.

Lemma served_ext {A} ks : ∀ ys zs : list A,
  length ys = length ks → length zs = length ks →
  (∀ k, served k ks ys = served k ks zs) → ys = zs.
Proof.
  induction ks as [|k' ks IH]; intros [|y ys] [|z zs] Hy Hz Heq; try done.
  cbn in Hy, Hz. injection Hy as Hy. injection Hz as Hz.
  pose proof (Heq k') as H0. cbn in H0. rewrite !decide_True in H0 by done.
  injection H0 as -> H0. f_equal. apply IH; [done..|].
  intros k. specialize (Heq k). cbn in Heq.
  destruct (decide (k' = k)); [by injection Heq|done].
Qed.

Lemma served_rebind k : ∀ xs bs,
  served k (pool_key <$> xs) (zip_with rebind bs xs) =
    zip_with rebind (served k (pool_key <$> xs) bs)
      (filter (λ x, pool_key x = k) xs).
Proof.
  induction xs as [|x xs IH]; intros [|b bs]; try done.
  rewrite fmap_cons, filter_cons. cbn [zip_with served].
  destruct (decide (pool_key x = k)); cbn [zip_with]; by rewrite IH.
Qed.

(** ** next_power_of_2 *)

Lemma next_power_of_2_pos n : 0 < next_power_of_2 n.
Proof. unfold next_power_of_2. apply Z.pow_pos_nonneg; [lia|apply Z.log2_up_nonneg]. Qed.

Lemma next_power_of_2_least n :
  0 < n →
  n ≤ next_power_of_2 n ∧
  ∀ e, 0 ≤ e → n ≤ 2 ^ e → next_power_of_2 n ≤ 2 ^ e.
Proof.
  intros Hn. unfold next_power_of_2. split.
  - destruct (decide (n = 1)) as [->|]; [done|].
    apply Z.log2_up_spec. lia.
  - intros e He Hle. apply Z.pow_le_mono_r; [lia|].
    apply Z.log2_up_le_pow2; lia.
Qed.

Lemma itemsize_pos d : 0 < itemsize d.
Proof. by destruct d. Qed.

Lemma alloc_size_pos x : 0 < (pool_key x).1 * itemsize (tdtype x).
Proof.
  apply Z.mul_pos_pos; [apply next_power_of_2_pos|apply itemsize_pos].
Qed.

Lemma buffers_stable s xs ys :
  pool_key <$> xs = pool_key <$> ys →
  buffers ys (start (state_after (get_static_inputs xs) s)) =
    buffers xs (start s).
Proof.
  intros Hkeys.
  assert (length xs = length ys) as Hlen.
  { by rewrite <- (length_fmap pool_key xs), Hkeys, length_fmap. }
  apply (served_ext (pool_key <$> xs)).
  { by rewrite buffers_length, length_fmap. }
  { by rewrite buffers_length, length_fmap. }
  intros k. rewrite served_take. rewrite Hkeys at 1. rewrite served_take.
  assert (demand k ys = demand k xs) as ->.
  { by rewrite !demand_keys, Hkeys. }
  f_equal. apply pool_unchanged_call.
  rewrite pool_length_call, !demand_keys, Hkeys. lia.
Qed.

(** ** Well-formedness is an invariant *)


Lemma step_brk σ x : brk (memory (l_state σ)) ≤ brk (memory (l_state (step σ x))).
Proof.
  unfold step. destruct (l_clone σ !!! pool_key x); cbn; [|lia].
  pose proof (alloc_size_pos x). cbn in *. lia.
Qed.






(** ** Places of the served buffers *)

Lemma served_lookup {A} k : ∀ ks (ys : list A) i y,
  ks !! i = Some k → ys !! i = Some y →
  served k ks ys !! rank k i ks = Some y.
Proof.
  unfold rank.
  induction ks as [|k' ks IH]; intros [|y' ys] [|i] y Hk Hy; try done.
  - cbn in Hk, Hy. simplify_eq. cbn. by rewrite decide_True.
  - cbn in Hk, Hy. cbn [served take]. rewrite filter_cons.
    destruct (decide (k' = k)); cbn [length]; by apply IH.
Qed.


(** The buffer bound to input [i] sits in the deque of the input's key after
    the call, at the rank of [i] among the inputs of that key. *)
Lemma buffer_place xs s i x b :
  xs !! i = Some x → buffers xs (start s) !! i = Some b →
  (static_inputs_pool (state_after (get_static_inputs xs) s) !!! pool_key x)
    !! rank (pool_key x) i (pool_key <$> xs) = Some b.
Proof.
  intros Hx Hb. rewrite pool_after_call. apply lookup_app_l_Some.
  apply served_lookup; [|done]. by rewrite list_lookup_fmap, Hx.
Qed.


(** ** Memory: copies and frames *)

Lemma write_cells_cons b w ws c :
  write_cells b (w :: ws) c = write_cells b ws (<[(b, w.1) := w.2]> c).
Proof. reflexivity. Qed.

Lemma write_cells_miss b ws : ∀ c a i,
  (a = b → i ∉ ws.*1) → write_cells b ws c !! (a, i) = c !! (a, i).
Proof.
  induction ws as [|w ws IH]; intros c a i Hmiss; [done|].
  rewrite write_cells_cons, IH.
  - apply lookup_insert_ne. intros Heq. injection Heq as Hb Hi.
    apply Hmiss; [done|]. rewrite <- Hi, fmap_cons. left.
  - intros Hb Hin. apply (Hmiss Hb). rewrite fmap_cons. by right.
Qed.





Lemma copy_frame v x m a i :
  a ≠ base (tstorage v) →
  cells (copy_mem v x m) !! (a, i) = cells m !! (a, i).
Proof. intros Hne. unfold copy_mem. cbn. by apply write_cells_miss. Qed.

Lemma step_frame σ x a i :
  a ≠ base (tstorage (chosen x σ)) →
  cells (memory (l_state (step σ x))) !! (a, i) =
    cells (memory (l_state σ)) !! (a, i).
Proof.
  intros Hne. unfold step.
  destruct (l_clone σ !!! pool_key x); cbn [l_state]; unfold set_memory;
    cbn [memory]; by rewrite copy_frame.
Qed.


Lemma step_clone σ x k b :
  b ∈ l_clone (step σ x) !!! k → b ∈ l_clone σ !!! k.
Proof.
  unfold step. destruct (l_clone σ !!! pool_key x) as [|b0 rest] eqn:E; cbn.
  - by rewrite touch_lookup_total.
  - destruct (decide (pool_key x = k)) as [<-|Hne].
    + rewrite lookup_total_insert_eq, E. by right.
    + by rewrite lookup_total_insert_ne, touch_lookup_total.
Qed.

(** The loop writes only into the buffers of the snapshot and into new
    allocations. *)
Lemma run_frame xs : ∀ σ a,
  a < brk (memory (l_state σ)) →
  (∀ k b, b ∈ l_clone σ !!! k → base (tstorage b) ≠ a) →
  ∀ i, cells (memory (l_state (foldl step σ xs))) !! (a, i) =
         cells (memory (l_state σ)) !! (a, i).
Proof.
  induction xs as [|x xs IH]; intros σ a Hbrk Hclone i; cbn [foldl]; [done|].
  rewrite IH.
  - apply step_frame. unfold chosen.
    destruct (l_clone σ !!! pool_key x) as [|b0 rest] eqn:E; cbn; [lia|].
    intros ->. apply (Hclone (pool_key x) b0); [|done]. rewrite E. left.
  - pose proof (step_brk σ x). lia.
  - intros k b Hin. by apply (Hclone k), (step_clone σ x).
Qed.









(** ** The wrapper *)

Ltac run_wrapper :=
  unfold call_model, cudagraphify_impl, call_replay, new_cell, read_cell,
    write_cell;
  unfold py_assert, log; unfold modify, get_state;
  unfold mbind, M_bind, mret, M_ret; cbn.

Lemma bound_eq args s :
  bound args s = zip_with rebind (buffers args (start s)) args.
Proof. unfold bound. by rewrite returned_get_static_inputs. Qed.


Lemma get_static_inputs_bound args s :
  get_static_inputs args s =
    (inr (bound args s), state_after (get_static_inputs args) s).
Proof.
  rewrite bound_eq, state_after_get_static_inputs, get_static_inputs_run.
  by rewrite run_out.
Qed.

Lemma get_static_inputs_trace args s :
  trace (state_after (get_static_inputs args) s) = trace s.
Proof. rewrite state_after_get_static_inputs. apply (run_trace args (start s)). Qed.

Lemma get_static_inputs_cells args s :
  closure_cells (state_after (get_static_inputs args) s) = closure_cells s.
Proof. rewrite state_after_get_static_inputs. apply (run_cells args (start s)). Qed.

(** The eager branch. *)
Lemma wrapper_eager model inputs s :
  isinstance_list_tuple inputs = true →
  existsb isinstance_FakeTensor (items inputs) = false →
  let s1 := state_after (get_static_inputs (items inputs)) s in
  let b := bound (items inputs) s in
  let f := S (length (trace s)) in
  cuda_graphs_wrapper model inputs s =
    (inr (eager_lambda f),
     set_trace (trace s ++ [ModelCall model b;
                            Capture model b (seq 0 (length b)) f]) s1).
Proof.
  intros Hinst Hfake. unfold cuda_graphs_wrapper. rewrite Hinst, Hfake.
  run_wrapper. rewrite get_static_inputs_bound. cbn.
  rewrite get_static_inputs_trace, length_app, <- app_assoc. cbn.
  by rewrite Nat.add_1_r.
Qed.

(** The deferred branch. *)
Lemma wrapper_deferred model inputs s :
  isinstance_list_tuple inputs = true →
  existsb isinstance_FakeTensor (items inputs) = true →
  cuda_graphs_wrapper model inputs s =
    (inr (run model inputs (length (closure_cells s))),
     set_cells (closure_cells s ++ [None]) s).
Proof.
  intros Hinst Hfake. unfold cuda_graphs_wrapper. rewrite Hinst, Hfake.
  by run_wrapper.
Qed.

(** The first invocation of a deferred wrapper: warm-up and capture. *)
Lemma invoke_run_empty model inputs cell args s :
  closure_cells s !! cell = Some None →
  let s1 := state_after (get_static_inputs args) s in
  let b := bound args s in
  let f := (length (trace s) + 2)%nat in
  invoke (run model inputs cell) args s =
    (inr (ReplayOutput f b),
     set_trace (trace s ++ [RngSave; ModelCall model b;
                            Capture model b (seq 0 (length (items inputs))) f;
                            RngRestore; Replay f b])
       (set_cells (<[cell := Some f]> (closure_cells s)) s1)).
Proof.
  intros Hcell. unfold invoke. run_wrapper.
  rewrite get_static_inputs_bound. cbn.
  rewrite get_static_inputs_cells, Hcell. cbn.
  rewrite get_static_inputs_cells, get_static_inputs_trace.
  rewrite !length_app, <- !app_assoc. cbn.
  by replace (length (trace s) + 1 + 1)%nat with (length (trace s) + 2)%nat
    by lia.
Qed.

(** A later invocation: replay only. *)
Lemma invoke_run_filled model inputs cell f args s :
  closure_cells s !! cell = Some (Some f) →
  let s1 := state_after (get_static_inputs args) s in
  let b := bound args s in
  invoke (run model inputs cell) args s =
    (inr (ReplayOutput f b), set_trace (trace s ++ [Replay f b]) s1).
Proof.
  intros Hcell. unfold invoke. run_wrapper.
  rewrite get_static_inputs_bound. cbn.
  rewrite get_static_inputs_cells, Hcell. cbn.
  by rewrite get_static_inputs_trace.
Qed.

Lemma capture_count_app t1 t2 :
  capture_count (t1 ++ t2) = (capture_count t1 + capture_count t2)%nat.
Proof. unfold capture_count. by rewrite filter_app, length_app. Qed.

(** Invocations of a deferred wrapper whose cell holds [f] replay [f] and
    leave the cell as it is. *)
Lemma invoke_all_filled model inputs cell f calls : ∀ s,
  closure_cells s !! cell = Some (Some f) →
  ∃ outs s' t,
    invoke_all (run model inputs cell) calls s = (inr outs, s') ∧
    trace s' = trace s ++ t ∧
    Forall (λ e, ∃ a, e = Replay f a) t ∧ length t = length calls ∧
    Forall (λ o, ∃ a, o = ReplayOutput f a) outs ∧
    length outs = length calls ∧
    closure_cells s' !! cell = Some (Some f).
Proof.
  induction calls as [|args calls IH]; intros s Hcell.
  - exists [], s, []. rewrite app_nil_r. by repeat split.
  - cbn [invoke_all]. rewrite bind_unfold, (invoke_run_filled _ _ _ f) by done.
    cbn zeta.
    set (s1 := set_trace _ _).
    destruct (IH s1) as (outs & s' & t & Hrun & Htrace & Ht & Hlen & Houts & Hlen' & Hcell').
    { unfold s1. cbn. by rewrite get_static_inputs_cells. }
    rewrite bind_unfold, Hrun.
    exists (ReplayOutput f (bound args s) :: outs), s', (Replay f (bound args s) :: t).
    split; [done|]. split.
    { rewrite Htrace. unfold s1. cbn. by rewrite <- app_assoc. }
    split; [constructor; eauto|]. split; [cbn; lia|].
    split; [constructor; eauto|]. split; [cbn; lia|]. done.
Qed.

Lemma capture_count_replays f t :
  Forall (λ e, ∃ a, e = Replay f a) t → capture_count t = 0%nat.
Proof.
  induction 1 as [|e t [a ->] _ IH]; [done|].
  unfold capture_count in *. by rewrite filter_cons.
Qed.

Lemma events_app {A} (c : M A) s t :
  trace (c s).2 = trace s ++ t → events c s = t.
Proof. intros Heq. unfold events. by rewrite Heq, drop_app_length. Qed.

(** * The claims *)

(** ** C1: address stability *)

(** C1. Two consecutive calls to [get_static_inputs] whose inputs have the
    same ordered sequence of pool keys both return, and the buffers they
    return have the same base addresses, position by position. *)
Theorem address_stability s xs ys :
  pool_key <$> xs = pool_key <$> ys →
  ∃ out1 out2,
    returned (get_static_inputs xs) s = Some out1 ∧
    returned (get_static_inputs ys)
      (state_after (get_static_inputs xs) s) = Some out2 ∧
    length out1 = length xs ∧ length out2 = length xs ∧
    data_ptr <$> out1 = data_ptr <$> out2.
Proof.
  intros Hkeys.
  assert (length xs = length ys) as Hlen.
  { by rewrite <- (length_fmap pool_key xs), Hkeys, length_fmap. }
  eexists _, _. rewrite !returned_get_static_inputs.
  split; [done|]. split; [done|].
  rewrite buffers_stable by done.
  rewrite !length_zip_with, !buffers_length.
  rewrite !rebind_addresses by (rewrite buffers_length; lia).
  repeat split; lia.
Qed.

Lemma address_stability_witness :
  ∃ out1 out2,
    returned (get_static_inputs [f32_100; f32_300]) init_state = Some out1 ∧
    returned (get_static_inputs [f32_10x10; f32_260])
      (state_after (get_static_inputs [f32_100; f32_300]) init_state)
      = Some out2 ∧
    length out1 = length [f32_100; f32_300] ∧
    length out2 = length [f32_100; f32_300] ∧
    data_ptr <$> out1 = data_ptr <$> out2.
Proof.
  apply (address_stability init_state [f32_100; f32_300] [f32_10x10; f32_260]).
  reflexivity.
Defined.

(** ** C2: the size class *)

(** C2. The size class of a pool key is the next power of two of the length
    of the input's untyped storage, which is its length in bytes: float32
    inputs whose storages hold 100 and 300 elements (400 and 1200 bytes) get
    the size classes 512 and 2048, where the next powers of two of their
    element counts are 128 and 512; and the buffer registered for the first
    holds 512 elements. *)
Theorem size_class_counts_bytes :
  (∀ x, pool_key x = (next_power_of_2 (nbytes (tstorage x)), tdtype x)) ∧
  storage_elements f32_100 = 100 ∧ storage_elements f32_300 = 300 ∧
  pool_key f32_100 = (512, float32) ∧ pool_key f32_300 = (2048, float32) ∧
  next_power_of_2 (storage_elements f32_100) = 128 ∧
  next_power_of_2 (storage_elements f32_300) = 512 ∧
  let s := state_after (get_static_inputs [f32_100; f32_300]) init_state in
  static_inputs_pool s !!! (512, float32) = [pool_buffer 4096 512 float32] ∧
  static_inputs_pool s !!! (2048, float32) = [pool_buffer 6144 2048 float32] ∧
  static_inputs_pool s !!! (128, float32) = [].
Proof. repeat split; vm_compute; reflexivity. Qed.

(** ** C3: monotonic pool growth *)

(** C3. For every key, a call leaves the key's deque with
    max(count before, demand) buffers: the count is unchanged when the call's
    demand does not exceed it and grows by exactly the deficit otherwise; and
    over any sequence of calls the count never decreases. *)
Theorem pool_growth (k : Z * dtype) :
  (∀ xs s,
     let n := length (static_inputs_pool s !!! k) in
     let n' := length (static_inputs_pool
                         (state_after (get_static_inputs xs) s) !!! k) in
     n' = max n (demand k xs) ∧
     (n < n' → n < demand k xs ∧ n' = n + (demand k xs - n))%nat) ∧
  (∀ calls s,
     (length (static_inputs_pool s !!! k) ≤
      length (static_inputs_pool (after_calls calls s) !!! k))%nat).
Proof.
  split.
  - intros xs s. cbn zeta. rewrite pool_length_call. lia.
  - intros calls. unfold after_calls.
    induction calls as [|xs calls IH]; intros s; cbn [foldl]; [done|].
    etrans; [|apply IH]. rewrite pool_length_call. lia.
Qed.

(** ** C4: FIFO reuse *)

(** C4. With the deque of a key holding [A; B], a call that has one input
    of the key binds it to A; the next call with one input of the key binds
    it to A again; a call with two inputs of the key binds them to A and B,
    in this order. *)
Theorem fifo_reuse s k A B xs1 xs2 xs3 :
  static_inputs_pool s !!! k = [A; B] →
  demand k xs1 = 1%nat → demand k xs2 = 1%nat → demand k xs3 = 2%nat →
  let of_key := filter (λ x, pool_key x = k) in
  let s1 := state_after (get_static_inputs xs1) s in
  let s2 := state_after (get_static_inputs xs2) s1 in
  ∃ out1 out2 out3,
    returned (get_static_inputs xs1) s = Some out1 ∧
    returned (get_static_inputs xs2) s1 = Some out2 ∧
    returned (get_static_inputs xs3) s2 = Some out3 ∧
    served k (pool_key <$> xs1) out1 = zip_with rebind [A] (of_key xs1) ∧
    served k (pool_key <$> xs2) out2 = zip_with rebind [A] (of_key xs2) ∧
    served k (pool_key <$> xs3) out3 = zip_with rebind [A; B] (of_key xs3).
Proof.
  intros Hpool H1 H2 H3 of_key s1 s2.
  assert (static_inputs_pool s1 !!! k = [A; B]) as Hpool1.
  { unfold s1. rewrite pool_unchanged_call; [done|]. rewrite Hpool, H1. cbn. lia. }
  assert (static_inputs_pool s2 !!! k = [A; B]) as Hpool2.
  { unfold s2. rewrite pool_unchanged_call; [done|]. rewrite Hpool1, H2. cbn. lia. }
  assert (static_inputs_pool (state_after (get_static_inputs xs3) s2) !!! k
          = [A; B]) as Hpool3.
  { rewrite pool_unchanged_call; [done|]. rewrite Hpool2, H3. cbn. lia. }
  eexists _, _, _. rewrite !returned_get_static_inputs.
  split; [done|]. split; [done|]. split; [done|].
  rewrite !served_rebind, !served_take.
  fold s1 s2. rewrite Hpool1, Hpool2, Hpool3, H1, H2, H3. done.
Qed.

Lemma fifo_reuse_witness :
  ∃ out1 out2 out3,
    returned (get_static_inputs [f32_100]) pooled_state = Some out1 ∧
    returned (get_static_inputs [f32_300; f32_10x10])
      (state_after (get_static_inputs [f32_100]) pooled_state) = Some out2 ∧
    returned (get_static_inputs [f32_10x10; f32_300; f32_100])
      (state_after (get_static_inputs [f32_300; f32_10x10])
         (state_after (get_static_inputs [f32_100]) pooled_state)) = Some out3 ∧
    served (512, float32) (pool_key <$> [f32_100]) out1 =
      zip_with rebind [buf_A] [f32_100] ∧
    served (512, float32) (pool_key <$> [f32_300; f32_10x10]) out2 =
      zip_with rebind [buf_A] [f32_10x10] ∧
    served (512, float32) (pool_key <$> [f32_10x10; f32_300; f32_100]) out3 =
      zip_with rebind [buf_A; buf_B] [f32_10x10; f32_100].
Proof.
  apply (fifo_reuse pooled_state (512, float32) buf_A buf_B
           [f32_100] [f32_300; f32_10x10] [f32_10x10; f32_300; f32_100]);
    vm_compute; reflexivity.
Defined.

(** ** C5: value fidelity *)




(** ** C6: the address assertion *)


(** ** C7: single capture in deferred mode *)

(** C7. For a wrapper built from examples of which one is symbolic, any
    sequence of one or more invocations adds to the trace the warm-up and
    one capture, made by the first invocation, and after that only replays
    of the function that capture returned: the capture primitive is called
    once, every result comes from the one replay function, and the closure
    cell holds it at the end. *)
Theorem single_capture model inputs s c s0 args calls :
  cuda_graphs_wrapper model inputs s = (inr c, s0) →
  existsb isinstance_FakeTensor (items inputs) = true →
  ∃ f cell outs s' t,
    c = run model inputs cell ∧
    closure_cells s0 !! cell = Some None ∧
    invoke_all c (args :: calls) s0 = (inr outs, s') ∧
    trace s' =
      trace s0 ++
      [RngSave; ModelCall model (bound args s0);
       Capture model (bound args s0) (seq 0 (length (items inputs))) f;
       RngRestore; Replay f (bound args s0)] ++ t ∧
    Forall (λ e, ∃ a, e = Replay f a) t ∧ length t = length calls ∧
    Forall (λ o, ∃ a, o = ReplayOutput f a) outs ∧
    length outs = S (length calls) ∧
    capture_count (trace (state_after (invoke c args) s0)) =
      S (capture_count (trace s0)) ∧
    capture_count (trace s') = S (capture_count (trace s0)) ∧
    closure_cells s' !! cell = Some (Some f).
Proof.
  intros Hwrap Hfake.
  assert (isinstance_list_tuple inputs = true) as Hinst.
  { destruct inputs; try done; by cbv in Hwrap. }
  rewrite wrapper_deferred in Hwrap by done.
  injection Hwrap as <- <-.
  set (cell := length (closure_cells s)).
  set (s0 := set_cells (closure_cells s ++ [None]) s).
  assert (closure_cells s0 !! cell = Some None) as Hcell.
  { unfold s0, cell. cbn. by apply list_lookup_middle. }
  pose proof (invoke_run_empty model inputs cell args s0 Hcell) as Hfirst.
  cbn zeta in Hfirst.
  set (f := (length (trace s0) + 2)%nat) in *.
  set (s1 := set_trace _ _) in Hfirst.
  destruct (invoke_all_filled model inputs cell f calls s1)
    as (outs & s' & t & Hrun & Htrace & Ht & Hlen & Houts & Hlen' & Hcell').
  { unfold s1. cbn. apply list_lookup_insert_eq. by eapply lookup_lt_Some. }
  exists f, cell, (ReplayOutput f (bound args s0) :: outs), s', t.
  split; [done|]. split; [done|]. split.
  { cbn [invoke_all]. by rewrite bind_unfold, Hfirst, bind_unfold, Hrun. }
  split; [by rewrite Htrace; unfold s1; cbn; rewrite <- app_assoc|].
  split; [done|]. split; [done|].
  split; [constructor; eauto|]. split; [cbn; lia|].
  split; [|split; [|done]].
  - unfold state_after. rewrite Hfirst. unfold s1, set_trace. cbn [snd trace].
    rewrite capture_count_app.
    change (capture_count [_; _; _; _; _]) with 1%nat. lia.
  - rewrite Htrace. unfold s1, set_trace. cbn [trace].
    rewrite !capture_count_app, (capture_count_replays f t) by done.
    change (capture_count [_; _; _; _; _]) with 1%nat. lia.
Qed.

Lemma single_capture_witness :
  ∃ f cell outs s' t,
    deferred_wrapper = run 0%nat (PyList [fake_f32]) cell ∧
    closure_cells deferred_state !! cell = Some None ∧
    invoke_all deferred_wrapper ([f32_100] :: [[f32_10x10]; [f32_100]])
      deferred_state = (inr outs, s') ∧
    trace s' =
      trace deferred_state ++
      [RngSave; ModelCall 0%nat (bound [f32_100] deferred_state);
       Capture 0%nat (bound [f32_100] deferred_state)
         (seq 0 (length (items (PyList [fake_f32])))) f;
       RngRestore; Replay f (bound [f32_100] deferred_state)] ++ t ∧
    Forall (λ e, ∃ a, e = Replay f a) t ∧
    length t = length [[f32_10x10]; [f32_100]] ∧
    Forall (λ o, ∃ a, o = ReplayOutput f a) outs ∧
    length outs = S (length [[f32_10x10]; [f32_100]]) ∧
    capture_count (trace (state_after (invoke deferred_wrapper [f32_100])
                            deferred_state)) =
      S (capture_count (trace deferred_state)) ∧
    capture_count (trace s') = S (capture_count (trace deferred_state)) ∧
    closure_cells s' !! cell = Some (Some f).
Proof.
  apply (single_capture 0%nat (PyList [fake_f32]) init_state
           deferred_wrapper deferred_state [f32_100]
           [[f32_10x10]; [f32_100]]); reflexivity.
Defined.

(** ** C8: the static index set passed to the capture primitive *)




(** ** C9: distinct buffers within a call, append-only pool *)



(** ** C10: the guard on the inputs argument *)

(** C10. [cuda_graphs_wrapper] raises AssertionError, with the state (pool,
    memory, trace) untouched, when [inputs] is neither a list nor a tuple;
    for a list or a tuple it selects the deferred branch when some item is a
    FakeTensor, returning [run] with an empty cell, and the eager branch
    otherwise, returning the replay lambda. *)
Theorem wrapper_guard model inputs s :
  match inputs with
  | PyList l | PyTuple l =>
      if existsb isinstance_FakeTensor l
      then cuda_graphs_wrapper model inputs s =
             (inr (run model inputs (length (closure_cells s))),
              set_cells (closure_cells s ++ [None]) s)
      else ∃ f s', cuda_graphs_wrapper model inputs s = (inr (eager_lambda f), s')
  | _ => cuda_graphs_wrapper model inputs s = (inl AssertionError, s)
  end.
Proof.
  destruct inputs as [l|l| |]; try reflexivity;
    destruct (existsb isinstance_FakeTensor l) eqn:Hfake.
  - by apply wrapper_deferred.
  - eexists _, _. by apply wrapper_eager.
  - by apply wrapper_deferred.
  - eexists _, _. by apply wrapper_eager.
Qed.

(** * Further properties of the module *)

(** ** Calls the pool already covers *)

Lemma demand_cons k x xs :
  demand k (x :: xs) =
    if decide (pool_key x = k) then S (demand k xs) else demand k xs.
Proof. unfold demand. rewrite filter_cons. by destruct (decide _). Qed.

(** An iteration that finds a buffer in the snapshot changes neither the
    pool nor the break. *)
Lemma step_covered σ x :
  l_clone σ !!! pool_key x ≠ [] →
  static_inputs_pool (l_state (step σ x)) = static_inputs_pool (l_state σ) ∧
  brk (memory (l_state (step σ x))) = brk (memory (l_state σ)).
Proof. unfold step. by destruct (l_clone σ !!! pool_key x). Qed.

Lemma run_covered xs : ∀ σ,
  (∀ k, demand k xs ≤ length (l_clone σ !!! k))%nat →
  static_inputs_pool (l_state (foldl step σ xs)) = static_inputs_pool (l_state σ) ∧
  brk (memory (l_state (foldl step σ xs))) = brk (memory (l_state σ)).
Proof.
  induction xs as [|x xs IH]; intros σ Hcov; cbn [foldl]; [done|].
  assert (l_clone σ !!! pool_key x ≠ []) as Hne.
  { specialize (Hcov (pool_key x)). rewrite demand_cons, decide_True in Hcov by done.
    intros Heq. rewrite Heq in Hcov. cbn in Hcov. lia. }
  destruct (step_covered σ x Hne) as [Hp Hb].
  destruct (IH (step σ x)) as [Hp' Hb'].
  - intros k. specialize (Hcov k). rewrite demand_cons in Hcov.
    unfold step. destruct (l_clone σ !!! pool_key x) as [|b rest] eqn:E; [done|].
    cbn [l_clone]. destruct (decide (pool_key x = k)) as [<-|Hk].
    + rewrite lookup_total_insert_eq. rewrite E in Hcov. cbn in Hcov. lia.
    + by rewrite lookup_total_insert_ne, touch_lookup_total.
  - split; congruence.
Qed.

Lemma covered_call s xs :
  (∀ k, demand k xs ≤ length (static_inputs_pool s !!! k))%nat →
  static_inputs_pool (state_after (get_static_inputs xs) s) = static_inputs_pool s ∧
  brk (memory (state_after (get_static_inputs xs) s)) = brk (memory s).
Proof.
  intros Hcov. rewrite state_after_get_static_inputs.
  apply (run_covered xs (start s)), Hcov.
Qed.

Lemma covered_after_call s xs ys k :
  pool_key <$> xs = pool_key <$> ys →
  (demand k ys ≤
   length (static_inputs_pool (state_after (get_static_inputs xs) s) !!! k))%nat.
Proof.
  intros Hkeys. rewrite pool_length_call, !demand_keys, Hkeys. lia.
Qed.

(** The buffers a covered call picks depend on the pool and on the key
    sequence only. *)
Lemma buffers_determined s t xs ys :
  pool_key <$> xs = pool_key <$> ys →
  static_inputs_pool s = static_inputs_pool t →
  (∀ k, demand k xs ≤ length (static_inputs_pool s !!! k))%nat →
  buffers ys (start t) = buffers xs (start s).
Proof.
  intros Hkeys Hpool Hcov.
  assert (length xs = length ys) as Hlen.
  { by rewrite <- (length_fmap pool_key xs), Hkeys, length_fmap. }
  assert (∀ k, demand k ys = demand k xs) as Hdem.
  { intros k. by rewrite !demand_keys, Hkeys. }
  apply (served_ext (pool_key <$> xs)).
  { by rewrite buffers_length, length_fmap. }
  { by rewrite buffers_length, length_fmap. }
  intros k. rewrite served_take. rewrite Hkeys at 1. rewrite served_take.
  rewrite Hdem. f_equal.
  destruct (covered_call s xs Hcov) as [-> _].
  destruct (covered_call t ys) as [-> _]; [|by rewrite Hpool].
  intros k'. rewrite Hdem, <- Hpool. apply Hcov.
Qed.

(** X1. A call whose key sequence repeats that of the call before it
    allocates nothing: the pool dictionary and the allocator's break are
    what the first call left. *)
Theorem repeated_call_allocates_nothing s xs ys :
  pool_key <$> xs = pool_key <$> ys →
  let s1 := state_after (get_static_inputs xs) s in
  let s2 := state_after (get_static_inputs ys) s1 in
  static_inputs_pool s2 = static_inputs_pool s1 ∧
  brk (memory s2) = brk (memory s1).
Proof.
  intros Hkeys s1 s2. apply covered_call.
  intros k. by apply covered_after_call.
Qed.

Lemma repeated_call_allocates_nothing_witness :
  let s1 := state_after (get_static_inputs [f32_100; f32_300]) init_state in
  let s2 := state_after (get_static_inputs [f32_10x10; f32_260]) s1 in
  static_inputs_pool s2 = static_inputs_pool s1 ∧
  brk (memory s2) = brk (memory s1).
Proof.
  apply (repeated_call_allocates_nothing init_state
           [f32_100; f32_300] [f32_10x10; f32_260]).
  reflexivity.
Defined.

(** ** The high-water mark *)

(** X2. After any sequence of calls the deque of a key holds as many buffers
    as the larger of its initial count and the largest demand any of the
    calls had for the key. *)
Theorem pool_high_water_mark k calls : ∀ s,
  length (static_inputs_pool (after_calls calls s) !!! k) =
    max (length (static_inputs_pool s !!! k)) (peak_demand k calls).
Proof.
  unfold after_calls.
  induction calls as [|xs calls IH]; intros s; cbn [foldl peak_demand foldr].
  - lia.
  - rewrite IH, pool_length_call. fold (peak_demand k calls). lia.
Qed.

(** ** Invariants of the pool *)



Lemma step_typed σ x :
  pool_typed (l_state σ) → pool_typed (l_state (step σ x)).
Proof.
  intros Htyped k b. unfold step, chosen.
  destruct (l_clone σ !!! pool_key x) as [|b0 rest] eqn:E; cbn; [|apply Htyped].
  destruct (decide (pool_key x = k)) as [<-|Hne].
  - rewrite lookup_total_insert_eq, touch_lookup_total.
    intros [Hin|Hin%list_elem_of_singleton]%elem_of_app; [by apply Htyped|].
    by subst b.
  - rewrite lookup_total_insert_ne, touch_lookup_total by done. apply Htyped.
Qed.

Lemma run_typed xs : ∀ σ,
  pool_typed (l_state σ) → pool_typed (l_state (foldl step σ xs)).
Proof.
  induction xs as [|x xs IH]; intros σ Htyped; cbn [foldl]; [done|].
  by apply IH, step_typed.
Qed.

Lemma get_static_inputs_typed xs s :
  pool_typed s → pool_typed (state_after (get_static_inputs xs) s).
Proof. rewrite state_after_get_static_inputs. apply (run_typed xs (start s)). Qed.

Lemma pool_typed_empty s : static_inputs_pool s = ∅ → pool_typed s.
Proof. intros Hempty k b. rewrite Hempty, lookup_total_empty. by intros ?%elem_of_nil. Qed.

(** The bound view at a position is a view of the buffer at the input's
    place in the pool after the call. *)
Lemma output_place xs s i x y :
  xs !! i = Some x →
  zip_with rebind (buffers xs (start s)) xs !! i = Some y →
  ∃ b, y = rebind b x ∧
       b ∈ static_inputs_pool (state_after (get_static_inputs xs) s)
             !!! pool_key x ∧
       (static_inputs_pool (state_after (get_static_inputs xs) s) !!! pool_key x)
         !! rank (pool_key x) i (pool_key <$> xs) = Some b.
Proof.
  intros Hx Hy.
  apply lookup_zip_with_Some in Hy as (b & x' & -> & Hb & Hx').
  assert (x' = x) as -> by congruence.
  exists b. split; [done|].
  pose proof (buffer_place xs s i x b Hx Hb) as Hplace.
  split; [by eapply list_elem_of_lookup_2|done].
Qed.

(** X4. In a pool whose buffers have the dtype, size and byte length their
    key prescribes (true of the empty pool), a call keeps the pool so, and
    every bound view it returns has the dtype of its input, is a real
    tensor, and lives in a storage of size class times item size bytes. *)
Theorem bound_view_typed s xs :
  pool_typed s →
  pool_typed (state_after (get_static_inputs xs) s) ∧
  ∃ out,
    returned (get_static_inputs xs) s = Some out ∧
    ∀ i x y, xs !! i = Some x → out !! i = Some y →
      tdtype y = tdtype x ∧ tfake y = false ∧
      nbytes (tstorage y) = (pool_key x).1 * itemsize (tdtype x).
Proof.
  intros Htyped.
  pose proof (get_static_inputs_typed xs s Htyped) as Htyped'.
  split; [done|]. eexists. split; [apply returned_get_static_inputs|].
  intros i x y Hx Hy.
  destruct (output_place xs s i x y Hx Hy) as (b & -> & Hin & _).
  destruct (Htyped' _ _ Hin) as (Hdt & _ & _ & Hnb & Hfake).
  cbn in *. by rewrite Hdt, Hnb.
Qed.

Lemma bound_view_typed_witness :
  pool_typed (state_after (get_static_inputs [f32_300; i8_100]) pooled_state) ∧
  ∃ out,
    returned (get_static_inputs [f32_300; i8_100]) pooled_state = Some out ∧
    ∀ i x y, [f32_300; i8_100] !! i = Some x → out !! i = Some y →
      tdtype y = tdtype x ∧ tfake y = false ∧
      nbytes (tstorage y) = (pool_key x).1 * itemsize (tdtype x).
Proof.
  apply (bound_view_typed pooled_state [f32_300; i8_100]).
  apply get_static_inputs_typed, pool_typed_empty. reflexivity.
Defined.

Lemma next_power_of_2_ge n : n ≤ next_power_of_2 n.
Proof.
  destruct (decide (0 < n)) as [Hpos|Hneg].
  - by apply next_power_of_2_least.
  - pose proof (next_power_of_2_pos n). lia.
Qed.

(** X5. In such a pool the storage behind a bound view is at least as long,
    in bytes, as the storage of the input bound to it. *)
Theorem bound_view_capacity s xs i x :
  pool_typed s → xs !! i = Some x →
  ∃ out y,
    returned (get_static_inputs xs) s = Some out ∧ out !! i = Some y ∧
    untyped_storage_len x ≤ untyped_storage_len y.
Proof.
  intros Htyped Hx.
  pose proof (get_static_inputs_typed xs s Htyped) as Htyped'.
  destruct (lookup_lt_is_Some_2 (zip_with rebind (buffers xs (start s)) xs) i)
    as [y Hy].
  { rewrite length_zip_with, buffers_length.
    apply lookup_lt_Some in Hx. lia. }
  exists (zip_with rebind (buffers xs (start s)) xs), y.
  split; [apply returned_get_static_inputs|]. split; [done|].
  destruct (output_place xs s i x y Hx Hy) as (b & -> & Hin & _).
  destruct (Htyped' _ _ Hin) as (_ & _ & _ & Hnb & _).
  unfold untyped_storage_len. cbn [rebind as_strided tstorage]. rewrite Hnb.
  pose proof (next_power_of_2_ge (nbytes (tstorage x))) as Hge.
  pose proof (next_power_of_2_pos (nbytes (tstorage x))) as Hpos.
  pose proof (itemsize_pos (tdtype x)) as Hitem.
  unfold pool_key, untyped_storage_len. cbn [fst snd]. nia.
Qed.

Lemma bound_view_capacity_witness :
  ∃ out y,
    returned (get_static_inputs [f32_300; i8_100]) pooled_state = Some out ∧
    out !! 1%nat = Some y ∧
    untyped_storage_len i8_100 ≤ untyped_storage_len y.
Proof.
  apply (bound_view_capacity pooled_state [f32_300; i8_100] 1 i8_100).
  - apply get_static_inputs_typed, pool_typed_empty. reflexivity.
  - reflexivity.
Defined.

(** ** Reuse across devices *)

(** X6. The pool key has no device component: when an input makes the pool
    allocate the first buffer of its key, the buffer is on that input's
    device, and a later input of the same key is bound to that same buffer,
    on the first input's device, whatever its own device is. *)
Theorem reuse_ignores_device s x y :
  static_inputs_pool s !!! pool_key x = [] →
  pool_key y = pool_key x →
  ∃ v w,
    returned (get_static_inputs [x]) s = Some [v] ∧
    returned (get_static_inputs [y])
      (state_after (get_static_inputs [x]) s) = Some [w] ∧
    tdevice v = tdevice x ∧ tdevice w = tdevice x ∧
    data_ptr w = data_ptr v.
Proof.
  intros Hempty Hkey. eexists _, _. rewrite !returned_get_static_inputs.
  rewrite (buffers_stable s [x] [y]) by (cbn; by rewrite Hkey).
  cbn [buffers zip_with]. split; [done|]. split; [done|].
  unfold chosen. cbn [start l_clone]. rewrite Hempty. done.
Qed.

Lemma reuse_ignores_device_witness :
  ∃ v w,
    returned (get_static_inputs [f32_100]) init_state = Some [v] ∧
    returned (get_static_inputs [f32_100_cpu])
      (state_after (get_static_inputs [f32_100]) init_state) = Some [w] ∧
    tdevice v = tdevice f32_100 ∧ tdevice w = tdevice f32_100 ∧
    data_ptr w = data_ptr v.
Proof.
  apply (reuse_ignores_device init_state f32_100 f32_100_cpu); reflexivity.
Defined.

(** ** What a call writes *)

(** X7. [get_static_inputs] writes into pool buffers only: the contents of
    every storage that exists before the call and is not a pool buffer are
    the same after it, and the call adds nothing to the trace of external
    calls and changes no closure cell. *)
Theorem writes_confined_to_pool s xs a :
  a < brk (memory s) →
  (∀ k b, b ∈ static_inputs_pool s !!! k → base (tstorage b) ≠ a) →
  let s' := state_after (get_static_inputs xs) s in
  (∀ i, cells (memory s') !! (a, i) = cells (memory s) !! (a, i)) ∧
  trace s' = trace s ∧ closure_cells s' = closure_cells s.
Proof.
  intros Hbrk Hpool s'. unfold s'. split; [|split].
  - intros i. rewrite state_after_get_static_inputs.
    by apply (run_frame xs (start s)).
  - apply get_static_inputs_trace.
  - apply get_static_inputs_cells.
Qed.

Lemma writes_confined_to_pool_witness :
  let s' := state_after (get_static_inputs [f32_100; f32_300]) init_state in
  (∀ i, cells (memory s') !! (2048, i) = cells (memory init_state) !! (2048, i)) ∧
  trace s' = trace init_state ∧ closure_cells s' = closure_cells init_state.
Proof.
  apply (writes_confined_to_pool init_state [f32_100; f32_300] 2048).
  - reflexivity.
  - intros k b. cbn. rewrite lookup_total_empty. by intros ?%elem_of_nil.
Defined.

(** ** Rebinding overwrites *)




(** ** FIFO, position by position *)


(** ** Replaying *)

Lemma invoke_replays c f args s :
  replays c f s →
  let s1 := set_trace (trace s ++ [Replay f (bound args s)])
              (state_after (get_static_inputs args) s) in
  invoke c args s = (inr (ReplayOutput f (bound args s)), s1) ∧ replays c f s1.
Proof.
  intros Hrep. destruct c as [g|model inputs cell]; cbn in Hrep.
  - subst g. split; [|done]. unfold invoke. run_wrapper.
    rewrite get_static_inputs_bound. cbn. by rewrite get_static_inputs_trace.
  - split; [by apply invoke_run_filled|].
    cbn. by rewrite get_static_inputs_cells.
Qed.

(** Invocations of a callable that replays [f] only bind and replay. *)
Lemma invoke_all_replays c f calls : ∀ s,
  replays c f s →
  ∃ argsl outs s',
    invoke_all c calls s = (inr outs, s') ∧
    trace s' = trace s ++ (Replay f <$> argsl) ∧
    outs = ReplayOutput f <$> argsl ∧ length argsl = length calls ∧
    replays c f s'.
Proof.
  induction calls as [|args calls IH]; intros s Hrep.
  - exists [], [], s. cbn. by rewrite app_nil_r.
  - destruct (invoke_replays c f args s Hrep) as [Hinv Hrep1].
    cbn zeta in Hinv, Hrep1. set (s1 := set_trace _ _) in *.
    destruct (IH s1 Hrep1) as (argsl & outs & s' & Hrun & Htrace & Houts & Hlen & Hrep').
    exists (bound args s :: argsl), (ReplayOutput f (bound args s) :: outs), s'.
    split; [cbn [invoke_all]; by rewrite bind_unfold, Hinv, bind_unfold, Hrun|].
    split; [rewrite Htrace; unfold s1; cbn; by rewrite <- app_assoc|].
    split; [by rewrite Houts|]. split; [cbn; lia|done].
Qed.

(** With a pool that covers a key sequence, invocations with that key
    sequence bind to the same addresses every time. *)
Lemma invoke_all_stable c f xs0 s0 calls : ∀ s,
  replays c f s →
  static_inputs_pool s = static_inputs_pool s0 →
  (∀ k, demand k xs0 ≤ length (static_inputs_pool s0 !!! k))%nat →
  Forall (λ args, pool_key <$> args = pool_key <$> xs0) calls →
  ∃ argsl outs s',
    invoke_all c calls s = (inr outs, s') ∧
    trace s' = trace s ++ (Replay f <$> argsl) ∧
    outs = ReplayOutput f <$> argsl ∧ length argsl = length calls ∧
    Forall (λ a, data_ptr <$> a = data_ptr <$> buffers xs0 (start s0)) argsl ∧
    static_inputs_pool s' = static_inputs_pool s0.
Proof.
  induction calls as [|args calls IH]; intros s Hrep Hpool Hcov Hkeys.
  - exists [], [], s. cbn. rewrite app_nil_r. by repeat split.
  - apply Forall_cons in Hkeys as [Hk Hkeys].
    destruct (invoke_replays c f args s Hrep) as [Hinv Hrep1].
    cbn zeta in Hinv, Hrep1. set (s1 := set_trace _ _) in *.
    assert (static_inputs_pool s1 = static_inputs_pool s0) as Hpool1.
    { unfold s1. cbn. destruct (covered_call s args) as [-> _]; [|done].
      intros k. rewrite Hpool, demand_keys, Hk, <- demand_keys. apply Hcov. }
    destruct (IH s1 Hrep1 Hpool1 Hcov Hkeys)
      as (argsl & outs & s' & Hrun & Htrace & Houts & Hlen & Haddr & Hpool').
    exists (bound args s :: argsl), (ReplayOutput f (bound args s) :: outs), s'.
    split; [cbn [invoke_all]; by rewrite bind_unfold, Hinv, bind_unfold, Hrun|].
    split; [rewrite Htrace; unfold s1; cbn; by rewrite <- app_assoc|].
    split; [by rewrite Houts|]. split; [cbn; lia|]. split; [|done].
    constructor; [|done].
    rewrite bound_eq, rebind_addresses by apply buffers_length.
    by rewrite (buffers_determined s0 s xs0 args).
Qed.

Lemma bound_addresses args s :
  data_ptr <$> bound args s = data_ptr <$> buffers args (start s).
Proof. rewrite bound_eq. apply rebind_addresses, buffers_length. Qed.

(** X10. An eager wrapper warms the model up once and captures once, at
    construction, on the same bound inputs; every later invocation, whatever
    its arguments, only binds them and replays the captured function: the
    model and the capture primitive are not called again. *)
Theorem eager_captures_at_construction model inputs s calls :
  isinstance_list_tuple inputs = true →
  existsb isinstance_FakeTensor (items inputs) = false →
  let b := bound (items inputs) s in
  ∃ f s0 argsl outs s',
    cuda_graphs_wrapper model inputs s = (inr (eager_lambda f), s0) ∧
    trace s0 = trace s ++ [ModelCall model b;
                           Capture model b (seq 0 (length b)) f] ∧
    invoke_all (eager_lambda f) calls s0 = (inr outs, s') ∧
    trace s' = trace s0 ++ (Replay f <$> argsl) ∧
    outs = ReplayOutput f <$> argsl ∧ length argsl = length calls.
Proof.
  intros Hinst Hfake b.
  pose proof (wrapper_eager model inputs s Hinst Hfake) as Hwrap.
  cbn zeta in Hwrap. set (f := S (length (trace s))) in *.
  set (s0 := set_trace _ _) in Hwrap.
  destruct (invoke_all_replays (eager_lambda f) f calls s0 eq_refl)
    as (argsl & outs & s' & Hrun & Htrace & Houts & Hlen & _).
  exists f, s0, argsl, outs, s'. by repeat split.
Qed.

Lemma eager_captures_at_construction_witness :
  let b := bound (items (PyTuple [f32_100; f32_300])) init_state in
  ∃ f s0 argsl outs s',
    cuda_graphs_wrapper 0%nat (PyTuple [f32_100; f32_300]) init_state =
      (inr (eager_lambda f), s0) ∧
    trace s0 = trace init_state ++
                 [ModelCall 0%nat b; Capture 0%nat b (seq 0 (length b)) f] ∧
    invoke_all (eager_lambda f) [[f32_10x10; f32_260]; [i8_100]] s0 =
      (inr outs, s') ∧
    trace s' = trace s0 ++ (Replay f <$> argsl) ∧
    outs = ReplayOutput f <$> argsl ∧
    length argsl = length [[f32_10x10; f32_260]; [i8_100]].
Proof.
  apply (eager_captures_at_construction 0%nat (PyTuple [f32_100; f32_300])
           init_state [[f32_10x10; f32_260]; [i8_100]]); reflexivity.
Defined.

(** X11. Every invocation of an eager wrapper whose arguments have the key
    sequence of the example inputs passes to the replay function buffers at
    the addresses of the inputs the graph was captured with, and leaves the
    pool as construction left it. *)
Theorem eager_replay_addresses model inputs s calls :
  isinstance_list_tuple inputs = true →
  existsb isinstance_FakeTensor (items inputs) = false →
  Forall (λ args, pool_key <$> args = pool_key <$> items inputs) calls →
  let b := bound (items inputs) s in
  ∃ f s0 argsl outs s',
    cuda_graphs_wrapper model inputs s = (inr (eager_lambda f), s0) ∧
    captures (events (cuda_graphs_wrapper model inputs) s) =
      [(b, seq 0 (length b))] ∧
    invoke_all (eager_lambda f) calls s0 = (inr outs, s') ∧
    replay_args f (drop (length (trace s0)) (trace s')) = argsl ∧
    length argsl = length calls ∧
    Forall (λ a, data_ptr <$> a = data_ptr <$> b) argsl ∧
    static_inputs_pool s' = static_inputs_pool s0.
Proof.
  intros Hinst Hfake Hkeys b.
  pose proof (wrapper_eager model inputs s Hinst Hfake) as Hwrap.
  cbn zeta in Hwrap. set (f := S (length (trace s))) in *.
  set (s0 := set_trace _ _) in Hwrap.
  set (s1 := state_after (get_static_inputs (items inputs)) s).
  assert (static_inputs_pool s0 = static_inputs_pool s1) as Hpool0 by done.
  destruct (invoke_all_stable (eager_lambda f) f (items inputs) s1 calls s0
              eq_refl Hpool0)
    as (argsl & outs & s' & Hrun & Htrace & Houts & Hlen & Haddr & Hpool');
    [intros k; by apply covered_after_call|done|].
  exists f, s0, argsl, outs, s'.
  split; [done|]. split.
  { erewrite events_app; [|by rewrite Hwrap]. done. }
  split; [done|]. split.
  { rewrite Htrace, drop_app_length. clear.
    induction argsl as [|a argsl IH]; [done|].
    cbn. rewrite decide_True by done. cbn. f_equal. apply IH. }
  split; [done|]. split; [|by rewrite Hpool'].
  eapply Forall_impl; [exact Haddr|]. intros a Ha. cbn beta in Ha.
  unfold b. rewrite bound_addresses, Ha. unfold s1.
  by rewrite buffers_stable.
Qed.

Lemma eager_replay_addresses_witness :
  let b := bound (items (PyList [f32_100; f32_300])) init_state in
  ∃ f s0 argsl outs s',
    cuda_graphs_wrapper 0%nat (PyList [f32_100; f32_300]) init_state =
      (inr (eager_lambda f), s0) ∧
    captures (events (cuda_graphs_wrapper 0%nat (PyList [f32_100; f32_300]))
                init_state) = [(b, seq 0 (length b))] ∧
    invoke_all (eager_lambda f)
      [[f32_10x10; f32_260]; [f32_100; f32_300]] s0 = (inr outs, s') ∧
    replay_args f (drop (length (trace s0)) (trace s')) = argsl ∧
    length argsl = length [[f32_10x10; f32_260]; [f32_100; f32_300]] ∧
    Forall (λ a, data_ptr <$> a = data_ptr <$> b) argsl ∧
    static_inputs_pool s' = static_inputs_pool s0.
Proof.
  apply (eager_replay_addresses 0%nat (PyList [f32_100; f32_300]) init_state
           [[f32_10x10; f32_260]; [f32_100; f32_300]]); try reflexivity.
  repeat constructor.
Defined.

Lemma captures_replays f argsl : captures (Replay f <$> argsl) = [].
Proof. induction argsl as [|a argsl IH]; [done|]. by cbn. Qed.

Lemma replay_args_replays f argsl : replay_args f (Replay f <$> argsl) = argsl.
Proof.
  induction argsl as [|a argsl IH]; [done|].
  cbn. rewrite decide_True by done. cbn. f_equal. apply IH.
Qed.

(** X12. For a deferred wrapper, the invocations that follow the first and
    have its key sequence pass to the replay function buffers at the
    addresses of the inputs the first invocation captured the graph with. *)
Theorem deferred_replay_addresses model inputs s c s0 args0 calls :
  cuda_graphs_wrapper model inputs s = (inr c, s0) →
  existsb isinstance_FakeTensor (items inputs) = true →
  Forall (λ args, pool_key <$> args = pool_key <$> args0) calls →
  let b0 := bound args0 s0 in
  ∃ f argsl outs s',
    invoke_all c (args0 :: calls) s0 = (inr outs, s') ∧
    captures (drop (length (trace s0)) (trace s')) =
      [(b0, seq 0 (length (items inputs)))] ∧
    replay_args f (drop (length (trace s0)) (trace s')) = b0 :: argsl ∧
    length argsl = length calls ∧
    Forall (λ a, data_ptr <$> a = data_ptr <$> b0) argsl.
Proof.
  intros Hwrap Hfake Hkeys b0.
  assert (isinstance_list_tuple inputs = true) as Hinst.
  { destruct inputs; try done; by cbv in Hwrap. }
  rewrite wrapper_deferred in Hwrap by done.
  injection Hwrap as <- <-.
  set (cell := length (closure_cells s)).
  set (s0 := set_cells (closure_cells s ++ [None]) s) in *.
  assert (closure_cells s0 !! cell = Some None) as Hcell.
  { unfold s0, cell. cbn. by apply list_lookup_middle. }
  pose proof (invoke_run_empty model inputs cell args0 s0 Hcell) as Hfirst.
  cbn zeta in Hfirst.
  set (f := (length (trace s0) + 2)%nat) in *.
  set (s1 := set_trace _ _) in Hfirst.
  set (sref := state_after (get_static_inputs args0) s0).
  assert (replays (run model inputs cell) f s1) as Hrep.
  { unfold s1. cbn. apply list_lookup_insert_eq. by eapply lookup_lt_Some. }
  destruct (invoke_all_stable (run model inputs cell) f args0 sref calls s1
              Hrep eq_refl)
    as (argsl & outs & s' & Hrun & Htrace & Houts & Hlen & Haddr & _);
    [intros k; by apply covered_after_call|done|].
  exists f, argsl, (ReplayOutput f b0 :: outs), s'.
  split; [cbn [invoke_all]; by rewrite bind_unfold, Hfirst, bind_unfold, Hrun|].
  assert (drop (length (trace s0)) (trace s') =
          [RngSave; ModelCall model b0;
           Capture model b0 (seq 0 (length (items inputs))) f;
           RngRestore; Replay f b0] ++ (Replay f <$> argsl)) as ->.
  { rewrite Htrace. unfold s1. cbn [trace set_trace].
    by rewrite <- app_assoc, drop_app_length. }
  split.
  { unfold captures. rewrite omap_app. fold (captures (Replay f <$> argsl)).
    by rewrite captures_replays. }
  split.
  { unfold replay_args. rewrite omap_app.
    fold (replay_args f (Replay f <$> argsl)). rewrite replay_args_replays.
    cbn. by rewrite decide_True. }
  split; [done|].
  eapply Forall_impl; [exact Haddr|]. intros a Ha. cbn beta in Ha.
  unfold b0. rewrite bound_addresses, Ha. unfold sref.
  by rewrite buffers_stable.
Qed.

Lemma deferred_replay_addresses_witness :
  let b0 := bound [f32_100; f32_300] deferred_state in
  ∃ f argsl outs s',
    invoke_all deferred_wrapper
      ([f32_100; f32_300] :: [[f32_10x10; f32_260]; [f32_100; f32_300]])
      deferred_state = (inr outs, s') ∧
    captures (drop (length (trace deferred_state)) (trace s')) =
      [(b0, seq 0 (length (items (PyList [fake_f32]))))] ∧
    replay_args f (drop (length (trace deferred_state)) (trace s')) =
      b0 :: argsl ∧
    length argsl = length [[f32_10x10; f32_260]; [f32_100; f32_300]] ∧
    Forall (λ a, data_ptr <$> a = data_ptr <$> b0) argsl.
Proof.
  apply (deferred_replay_addresses 0%nat (PyList [fake_f32]) init_state
           deferred_wrapper deferred_state [f32_100; f32_300]
           [[f32_10x10; f32_260]; [f32_100; f32_300]]); try reflexivity.
  repeat constructor.
Defined.

(** ** One pool for all wrappers *)

(** X13. The pool is shared by all wrappers: an eager wrapper built after
    another one, from example inputs of the same key sequence, captures its
    graph on buffers at the addresses the first wrapper captured on, and
    allocates nothing. *)
Theorem wrappers_share_buffers model1 model2 inputs1 inputs2 s :
  isinstance_list_tuple inputs1 = true →
  isinstance_list_tuple inputs2 = true →
  existsb isinstance_FakeTensor (items inputs1) = false →
  existsb isinstance_FakeTensor (items inputs2) = false →
  pool_key <$> items inputs1 = pool_key <$> items inputs2 →
  let s0 := state_after (cuda_graphs_wrapper model1 inputs1) s in
  let s0' := state_after (cuda_graphs_wrapper model2 inputs2) s0 in
  ∃ b1 b2,
    captures (events (cuda_graphs_wrapper model1 inputs1) s) =
      [(b1, seq 0 (length b1))] ∧
    captures (events (cuda_graphs_wrapper model2 inputs2) s0) =
      [(b2, seq 0 (length b2))] ∧
    data_ptr <$> b2 = data_ptr <$> b1 ∧
    static_inputs_pool s0' = static_inputs_pool s0 ∧
    brk (memory s0') = brk (memory s0).
Proof.
  intros Hinst1 Hinst2 Hfake1 Hfake2 Hkeys s0 s0'.
  pose proof (wrapper_eager model1 inputs1 s Hinst1 Hfake1) as Hw1.
  cbn zeta in Hw1.
  assert (s0 = set_trace
                 (trace s ++ [ModelCall model1 (bound (items inputs1) s);
                              Capture model1 (bound (items inputs1) s)
                                (seq 0 (length (bound (items inputs1) s)))
                                (S (length (trace s)))])
                 (state_after (get_static_inputs (items inputs1)) s)) as Hs0.
  { unfold s0, state_after at 1. by rewrite Hw1. }
  pose proof (wrapper_eager model2 inputs2 s0 Hinst2 Hfake2) as Hw2.
  cbn zeta in Hw2.
  set (s1 := state_after (get_static_inputs (items inputs1)) s) in *.
  assert (static_inputs_pool s0 = static_inputs_pool s1) as Hpool0
    by (by rewrite Hs0).
  assert (∀ k, demand k (items inputs1) ≤ length (static_inputs_pool s1 !!! k))%nat
    as Hcov by (intros k; by apply covered_after_call).
  exists (bound (items inputs1) s), (bound (items inputs2) s0).
  split; [erewrite events_app; [|by rewrite Hw1]; done|].
  split; [erewrite events_app; [|by rewrite Hw2]; done|].
  split.
  { rewrite !bound_addresses.
    rewrite (buffers_determined s1 s0 (items inputs1) (items inputs2))
      by done.
    unfold s1. by rewrite buffers_stable. }
  assert (static_inputs_pool s0' =
            static_inputs_pool (state_after (get_static_inputs (items inputs2)) s0) ∧
          memory s0' = memory (state_after (get_static_inputs (items inputs2)) s0))
    as [-> ->].
  { unfold s0', state_after at 1 3. by rewrite Hw2. }
  apply covered_call. intros k. rewrite Hpool0, demand_keys, <- Hkeys, <- demand_keys.
  apply Hcov.
Qed.

Lemma wrappers_share_buffers_witness :
  let s0 := state_after (cuda_graphs_wrapper 0%nat (PyList [f32_100; f32_300]))
              init_state in
  let s0' := state_after (cuda_graphs_wrapper 1%nat (PyTuple [f32_10x10; f32_260]))
               s0 in
  ∃ b1 b2,
    captures (events (cuda_graphs_wrapper 0%nat (PyList [f32_100; f32_300]))
                init_state) = [(b1, seq 0 (length b1))] ∧
    captures (events (cuda_graphs_wrapper 1%nat (PyTuple [f32_10x10; f32_260]))
                s0) = [(b2, seq 0 (length b2))] ∧
    data_ptr <$> b2 = data_ptr <$> b1 ∧
    static_inputs_pool s0' = static_inputs_pool s0 ∧
    brk (memory s0') = brk (memory s0).
Proof.
  apply (wrappers_share_buffers 0%nat 1%nat (PyList [f32_100; f32_300])
           (PyTuple [f32_10x10; f32_260]) init_state); reflexivity.
Defined.

(** ** Edge cases and sequences *)

(** X14. An empty list or tuple of example inputs counts as concrete: the
    wrapper takes the eager branch, warms the model up and captures with no
    inputs and an empty static index set, and leaves pool and memory as they
    were; binding an empty list returns an empty list and changes nothing. *)
Theorem empty_inputs_are_eager model inputs s :
  isinstance_list_tuple inputs = true → items inputs = [] →
  get_static_inputs [] s = (inr [], s) ∧
  cuda_graphs_wrapper model inputs s =
    (inr (eager_lambda (S (length (trace s)))),
     set_trace (trace s ++ [ModelCall model [];
                            Capture model [] [] (S (length (trace s)))]) s).
Proof.
  intros Hinst Hitems. split; [done|].
  rewrite wrapper_eager; [|done|by rewrite Hitems].
  cbn zeta. by rewrite Hitems.
Qed.

Lemma empty_inputs_are_eager_witness :
  get_static_inputs [] pooled_state = (inr [], pooled_state) ∧
  cuda_graphs_wrapper 3%nat (PyTuple []) pooled_state =
    (inr (eager_lambda (S (length (trace pooled_state)))),
     set_trace (trace pooled_state ++
                  [ModelCall 3%nat [];
                   Capture 3%nat [] [] (S (length (trace pooled_state)))])
       pooled_state).
Proof.
  apply (empty_inputs_are_eager 3%nat (PyTuple []) pooled_state); reflexivity.
Defined.



(** X16. Over any sequence of calls every deque of the pool only grows at
    its end: the deque a key had before the calls is a prefix of the deque
    it has after them. *)
Theorem pool_append_only_over_calls k calls : ∀ s,
  static_inputs_pool s !!! k `prefix_of`
  static_inputs_pool (after_calls calls s) !!! k.
Proof.
  unfold after_calls.
  induction calls as [|xs calls IH]; intros s; cbn [foldl]; [done|].
  etrans; [apply pool_prefix_call|apply IH].
Qed.
